(** * Line descriptors: line records, band descriptors, binarisation and
    multi-index hashing.

    The Rust module [opencv_34::hub::line_descriptor] forwards every call
    to the OpenCV C++ library ([sys::cv_line_descriptor_*]); the bodies of
    those calls are not part of the Rust sources.  Each definition below
    that stands for such a body is marked "Modelled from the spec:" and
    follows the specification of the module and its doc comments.
    Single-precision values ([f32]) are modelled exactly, as rationals
    [Q]; [i32] values as [Z]. *)

From Stdlib Require Import QArith ZArith Lia.
From stdpp Require Import base list gmap sorting.

Open Scope nat_scope.

(* ------------------------------------------------------------------ *)
(** ** Binary codes and Hamming distance *)

Module Hamming.

(** A binary code, one boolean per bit. *)
Abbreviation code := (list bool).

(** Width of a binary descriptor (the matcher manages 256-bit entries). *)
Definition code_bits : nat := 256.

(** Number of differing bits of two codes. *)
Fixpoint hamming (a b : list bool) : nat :=
  match a, b with
  | x :: a', y :: b' => (if Bool.eqb x y then 0 else 1) + hamming a' b'
  | _, _ => 0
  end.

(** Size of the [i]-th of [m] substrings of a [b]-bit code: the first
    [b mod m] substrings get one extra bit. *)
Definition chunk_len (b m i : nat) : nat :=
  b / m + (if i <? b mod m then 1 else 0).

Definition chunk_sizes (b m : nat) : list nat :=
  map (chunk_len b m) (seq 0 m).

Fixpoint split_sizes (sizes : list nat) (c : code) : list code :=
  match sizes with
  | [] => []
  | n :: s => take n c :: split_sizes s (drop n c)
  end.

(** The [m] disjoint substrings of a code. *)
Definition substrings (m : nat) (c : code) : list code :=
  split_sizes (chunk_sizes code_bits m) c.

Definition substring (m i : nat) (c : code) : code :=
  nth i (substrings m c) [].

End Hamming.

(* ------------------------------------------------------------------ *)
(** ** The multi-index hash matcher ([BinaryDescriptorMatcher]) *)

Module MIH.
Import Hamming.

(** One hash table: substring value -> identifiers of the codes having
    that substring. *)
Abbreviation table := (gmap (list bool) (list nat)).

Definition table_add (k : code) (id : nat) (t : table) : table :=
  <[k := default [] (t !! k) ++ [id]]> t.

Fixpoint fill_table (m i id : nat) (cs : list code) (t : table) : table :=
  match cs with
  | [] => t
  | c :: cs' => fill_table m i (S id) cs' (table_add (substring m i c) id t)
  end.

Definition build_table (m i : nat) (cs : list code) : table :=
  fill_table m i 0 cs ∅.

(** The committed index: the dataset codes and one table per substring. *)
Record index := {
  idx_m : nat;
  idx_codes : list code;
  idx_tables : list table
}.

(** Modelled from the spec: the index rebuild of [train] (section 4.6),
    whose body is in the C++ library. *)
Definition build_index (m : nat) (cs : list code) : index :=
  {| idx_m := m;
     idx_codes := cs;
     idx_tables := map (fun i => build_table m i cs) (seq 0 m) |}.

(** Entries of one table whose key lies within [s] bits of [qk]. *)
Definition probe (t : table) (qk : code) (s : nat) : list nat :=
  concat (map snd (filter (fun kv => hamming kv.1 qk <= s) (map_to_list t))).

(** Union of the per-table candidates, duplicates removed. *)
Definition candidates (idx : index) (q : code) (s : nat) : list nat :=
  remove_dups
    (concat (imap (fun i t => probe t (substring (idx_m idx) i q) s)
                  (idx_tables idx))).

(** Modelled from the spec: one query of [radius_match] (section 4.6):
    each table probed within [maxD / m] bits, candidates verified with
    the full-code distance.  A match is (train index, distance). *)
Definition radius_match (idx : index) (maxD : nat) (q : code)
  : list (nat * nat) :=
  omap (fun id =>
          c ← idx_codes idx !! id;
          let d := hamming q c in
          if decide (d <= maxD) then Some (id, d) else None)
       (candidates idx q (maxD / idx_m idx)).

(** Matcher state: substring count, staging area, committed index. *)
Record matcher := {
  mt_m : nat;
  staged : list (list code);
  committed : option index
}.

Inductive matcher_error := NoStagedCodes | NoIndex.

Definition new_matcher (m : nat) : matcher :=
  {| mt_m := m; staged := []; committed := None |}.

(** Modelled from the spec: [add] stages one matrix of codes per image. *)
Definition add (ds : list (list code)) (st : matcher) : matcher :=
  {| mt_m := mt_m st; staged := staged st ++ ds; committed := committed st |}.

(** Modelled from the spec: [train] rebuilds the index from the staged
    codes and empties the staging area; nothing staged is an error. *)
Definition train (st : matcher) : matcher_error + matcher :=
  match concat (staged st) with
  | [] => inl NoStagedCodes
  | cs => inr {| mt_m := mt_m st; staged := [];
                 committed := Some (build_index (mt_m st) cs) |}
  end.

(** Modelled from the spec: [clear] discards staged and committed data. *)
Definition clear (st : matcher) : matcher :=
  {| mt_m := mt_m st; staged := []; committed := None |}.

(** Modelled from the spec: [radius_match_1], querying the committed
    index; no committed index is an error. *)
Definition radius_query (st : matcher) (qs : list code) (maxD : nat)
  : matcher_error + list (list (nat * nat)) :=
  match committed st with
  | None => inl NoIndex
  | Some idx => inr (map (radius_match idx maxD) qs)
  end.

(** Modelled from the spec: the radius of a k-NN query ([knn_match])
    starts at 0 and grows by one bit until at least [k] codes lie within
    it, or until it reaches the code width. *)
Fixpoint escalate (idx : index) (k : nat) (q : code) (r fuel : nat) : nat :=
  match fuel with
  | O => r
  | S f => if decide (k <= length (radius_match idx r q)) then r
           else escalate idx k q (S r) f
  end.

Definition knn_radius (idx : index) (k : nat) (q : code) : nat :=
  escalate idx k q 0 code_bits.

(** Order of matches by ascending distance. *)
Definition closer (a b : nat * nat) : Prop := a.2 <= b.2.

#[global] Instance closer_dec : RelDecision closer :=
  fun a b => decide (a.2 <= b.2).

(** Modelled from the spec: one query of [knn_match]: the matches within
    the final radius, sorted by ascending distance, the first [k] kept. *)
Definition knn_match (idx : index) (k : nat) (q : code) : list (nat * nat) :=
  take k (merge_sort closer (radius_match idx (knn_radius idx k q) q)).

(** Modelled from the spec: one query of [_match], the best match. *)
Definition best_match (idx : index) (q : code) : option (nat * nat) :=
  head (knn_match idx 1 q).

End MIH.

(* ------------------------------------------------------------------ *)
(** ** The binariser (the [compute] path with [return_float_descr = false]) *)

Module Binarizer.
Import Hamming.

(** A real-valued line band descriptor: [m] blocks of 8 entries, the
    mean 4-vector then the standard-deviation 4-vector of each band. *)
Abbreviation descriptor := (list Q).

(** Entry [k] (0..7) of the band descriptor [BD_j]; entries missing from a
    shorter descriptor read as 0. *)
Definition bd_entry (d : descriptor) (j k : nat) : Q := nth (8 * j + k) d 0%Q.

(** [x > y] on descriptor entries. *)
Definition gt_bit (x y : Q) : bool := negb (Qle_bool x y).

(** Modelled from the spec: the comparison byte of a pair [(a, b)] of band
    descriptors ("each couple of BD is compared bit by bit and comparison
    generates an 8 bit string"); bit [k] is set when [BD_a[k] > BD_b[k]]. *)
Definition pair_byte (d : descriptor) (p : nat * nat) : list bool :=
  map (fun k => gt_bit (bd_entry d p.1 k) (bd_entry d p.2 k)) (seq 0 8).

(** Band count of the reference layout the pairs are drawn from. *)
Definition reference_bands : nat := 9.

(** Modelled from the spec: the 32 canonical pairs are fixed once and do
    not depend on the configured band count; the spec does not list them,
    and the model takes the first 32 pairs [(a, b)], [a < b], of the
    reference layout in lexicographic order. *)
Definition canonical_pairs : list (nat * nat) :=
  take 32 (concat (map (fun a => map (fun b => (a, b))
                                     (seq (S a) (reference_bands - S a)))
                       (seq 0 reference_bands))).

(** Modelled from the spec: the 256-bit code of one descriptor, the 32
    comparison bytes concatenated in pair order. *)
Definition binarize (d : descriptor) : code :=
  concat (map (pair_byte d) canonical_pairs).

(** One code per descriptor of the batch. *)
Definition binarize_batch (ds : list descriptor) : list code :=
  map binarize ds.

(** All entries sign-flipped. *)
Definition negate (d : descriptor) : descriptor := map Qopp d.

(** The two entries compared for bit [i] of a code. *)
Definition compared (d : descriptor) (i : nat) : Q * Q :=
  let p := nth (i / 8) canonical_pairs (0, 0) in
  (bd_entry d p.1 (i mod 8), bd_entry d p.2 (i mod 8)).

End Binarizer.

(* ------------------------------------------------------------------ *)
(** ** Band descriptors (LBD) *)

Module Bands.

(** The four accumulated sums of one row:
    [V1 = sum g_perp > 0], [V2 = sum -g_perp < 0], [V3], [V4] likewise
    for the component along the line. *)
Record V4 := { v1 : Q; v2 : Q; v3 : Q; v4 : Q }.

Definition v4_list (v : V4) : list Q := [v1 v; v2 v; v3 v; v4 v].

Section Lbd.
(** Number of bands [m] and band width [w]; the support region has
    [m * w] rows, row [h] lying in band [h / w]. *)
Variables m w : nat.
(** The weighted row sums of row [h] as seen by band [j] (gradient
    projection and the global and local Gaussian weights). *)
Variable row_sums : nat -> nat -> V4.
(** Square root of the float type. *)
Variable sqrt_q : Q -> Q.

(** Modelled from the spec: the rows of band [j] and of its immediate
    neighbours (no band above the first one, none below the last one). *)
Definition band_rows (j : nat) : list nat :=
  filter (fun h => j <= S (h / w) /\ h / w <= S j) (seq 0 (m * w)).

(** Band description matrix: four rows [V1 .. V4], one column per row of
    the band. *)
Definition bdm (j : nat) : list (list Q) :=
  let cols := map (row_sums j) (band_rows j) in
  [map v1 cols; map v2 cols; map v3 cols; map v4 cols].

Definition q_mean (xs : list Q) : Q :=
  (fold_right Qplus 0 xs / inject_Z (Z.of_nat (length xs)))%Q.

Definition q_std (xs : list Q) : Q :=
  let mu := q_mean xs in
  sqrt_q (q_mean (map (fun x => (x - mu) * (x - mu))%Q xs)).

(** [BD_j]: the mean vector then the standard-deviation vector of the
    rows of [BDM_j]. *)
Definition band_descriptor (j : nat) : list Q :=
  map q_mean (bdm j) ++ map q_std (bdm j).

(** [LBD = (M_1, S_1, ..., M_m, S_m)]. *)
Definition lbd : list Q := concat (map band_descriptor (seq 0 m)).

End Lbd.

End Bands.

(* ------------------------------------------------------------------ *)
(** ** Line records ([KeyLine]) *)

Module KeyLines.

Record Point2f := { px : Q; py : Q }.

(** The fields of [struct KeyLine], in declaration order. *)
Record KeyLine := {
  angle : Q;
  class_id : Z;
  octave : Z;
  pt : Point2f;
  response : Q;
  size : Q;
  start_point_x : Q;
  start_point_y : Q;
  end_point_x : Q;
  end_point_y : Q;
  s_point_in_octave_x : Q;
  s_point_in_octave_y : Q;
  e_point_in_octave_x : Q;
  e_point_in_octave_y : Q;
  line_length : Q;
  num_of_pixels : Z
}.

(** Modelled from the spec: the bodies of the four accessors are in the
    C++ library; each returns the point named by its doc comment. *)
Definition get_start_point (kl : KeyLine) : Point2f :=
  {| px := start_point_x kl; py := start_point_y kl |}.

Definition get_end_point (kl : KeyLine) : Point2f :=
  {| px := end_point_x kl; py := end_point_y kl |}.

Definition get_start_point_in_octave (kl : KeyLine) : Point2f :=
  {| px := s_point_in_octave_x kl; py := s_point_in_octave_y kl |}.

Definition get_end_point_in_octave (kl : KeyLine) : Point2f :=
  {| px := e_point_in_octave_x kl; py := e_point_in_octave_y kl |}.

(** A method with receiver [self] of a [Copy] type works on a copy: the
    caller keeps its record, paired here with the result. *)
Definition call_by_value {A} (f : KeyLine -> A) (kl : KeyLine) : A * KeyLine :=
  (f kl, kl).

End KeyLines.

(* ------------------------------------------------------------------ *)
(** ** Pyramid and multi-octave detection ([LSDDetector::detect]) *)

Module Detection.
Import KeyLines.

(** A single-channel image, row-major. *)
Record image := { img_rows : nat; img_cols : nat; img_data : list Q }.

Definition img_empty (im : image) : bool := (img_rows im =? 0) || (img_cols im =? 0).

(** A raw segment from the line segment detector, in octave coordinates. *)
Record segment := { seg_sx : Q; seg_sy : Q; seg_ex : Q; seg_ey : Q }.

Inductive detect_error := EmptyImage | BadOctaveCount | BadMask.

Section Detect.
(** Gaussian blur and downsampling by the reduction ratio. *)
Variable gaussian_blur : image -> image.
Variable downsample : Z -> image -> image.
(** The line segment detector on one octave image (octave index and mask
    given). *)
Variable lsd : nat -> image -> image -> list segment.
(** Float functions of the record assembler and the raster walk. *)
Variable atan2_q : Q -> Q -> Q.
Variable sqrt_q : Q -> Q.
Variable line_pixels : segment -> Z.

Fixpoint pyramid_levels (ratio : Z) (n : nat) (im : image) : list image :=
  match n with
  | O => []
  | S n' => im :: pyramid_levels ratio n' (downsample ratio (gaussian_blur im))
  end.

(** Modelled from the spec: the pyramid builder (section 4.1). *)
Definition build_pyramid (im : image) (num_octaves ratio : Z)
  : detect_error + list image :=
  if img_empty im then inl EmptyImage
  else if (num_octaves <? 1)%Z then inl BadOctaveCount
  else inr (pyramid_levels ratio (Z.to_nat num_octaves) im).

(** Modelled from the spec: the record assembler (section 4.3) for the
    [id]-th segment of octave [oct]. *)
Definition make_keyline (ratio : Z) (lvl : image) (oct id : nat) (sg : segment)
  : KeyLine :=
  let f := (inject_Z ratio ^ Z.of_nat oct)%Q in
  let dx := (seg_ex sg - seg_sx sg)%Q in
  let dy := (seg_ey sg - seg_sy sg)%Q in
  let len := sqrt_q (dx * dx + dy * dy)%Q in
  let dim := inject_Z (Z.of_nat (Nat.max (img_cols lvl) (img_rows lvl))) in
  {| angle := atan2_q dy dx;
     class_id := Z.of_nat id;
     octave := Z.of_nat oct;
     pt := {| px := ((seg_sx sg + seg_ex sg) / 2 * f)%Q;
              py := ((seg_sy sg + seg_ey sg) / 2 * f)%Q |};
     response := (len / dim)%Q;
     size := (len * 1)%Q;
     start_point_x := (seg_sx sg * f)%Q;
     start_point_y := (seg_sy sg * f)%Q;
     end_point_x := (seg_ex sg * f)%Q;
     end_point_y := (seg_ey sg * f)%Q;
     s_point_in_octave_x := seg_sx sg;
     s_point_in_octave_y := seg_sy sg;
     e_point_in_octave_x := seg_ex sg;
     e_point_in_octave_y := seg_ey sg;
     line_length := len;
     num_of_pixels := line_pixels sg |}.

(** Records of octaves [oct], [oct + 1], ...: in each octave, the
    segments in emission order. *)
Fixpoint assemble (ratio : Z) (mask : image) (oct : nat) (levels : list image)
  : list KeyLine :=
  match levels with
  | [] => []
  | lvl :: rest =>
      imap (make_keyline ratio lvl oct) (lsd oct lvl mask)
      ++ assemble ratio mask (S oct) rest
  end.

(** A mask must be empty ([Mat()]) or have the size of the image. *)
Definition mask_mismatch (im mask : image) : bool :=
  negb (img_empty mask)
  && negb ((img_rows mask =? img_rows im) && (img_cols mask =? img_cols im)).

(** Modelled from the spec: [LSDDetector::detect(image, keypoints, scale,
    numOctaves, mask)]. *)
Definition detect (im : image) (scale num_octaves : Z) (mask : image)
  : detect_error + list KeyLine :=
  if mask_mismatch im mask then inl BadMask
  else match build_pyramid im num_octaves scale with
       | inl e => inl e
       | inr levels => inr (assemble scale mask 0 levels)
       end.

End Detect.

End Detection.

(* ------------------------------------------------------------------ *)
(** ** Configuration of [BinaryDescriptor] *)

Module Config.

(** Modelled from the spec: the configuration the accessors read and
    write (section 6, descriptor engine). *)
Record BinaryDescriptor := {
  num_of_octave : Z;
  width_of_band : Z;
  reduction_ratio : Z;
  num_of_bands : Z
}.

Definition get_num_of_octaves (bd : BinaryDescriptor) : Z := num_of_octave bd.
Definition get_width_of_band (bd : BinaryDescriptor) : Z := width_of_band bd.
Definition get_reduction_ratio (bd : BinaryDescriptor) : Z := reduction_ratio bd.

Definition set_num_of_octaves (octaves : Z) (bd : BinaryDescriptor) : BinaryDescriptor :=
  {| num_of_octave := octaves; width_of_band := width_of_band bd;
     reduction_ratio := reduction_ratio bd; num_of_bands := num_of_bands bd |}.

Definition set_width_of_band (width : Z) (bd : BinaryDescriptor) : BinaryDescriptor :=
  {| num_of_octave := num_of_octave bd; width_of_band := width;
     reduction_ratio := reduction_ratio bd; num_of_bands := num_of_bands bd |}.

Definition set_reduction_ratio (r_ratio : Z) (bd : BinaryDescriptor) : BinaryDescriptor :=
  {| num_of_octave := num_of_octave bd; width_of_band := width_of_band bd;
     reduction_ratio := r_ratio; num_of_bands := num_of_bands bd |}.

End Config.

(* ------------------------------------------------------------------ *)
(** ** Sample inputs *)

Module Samples.
Import Hamming Binarizer Bands KeyLines Detection.

(** Two 256-bit codes at distance 2. *)
Definition zero_code : code := repeat false code_bits.
Definition two_bit_code : code := true :: true :: repeat false (code_bits - 2).

(** An all-zero descriptor of the reference layout (9 bands). *)
Definition zero_lbd : descriptor := repeat 0%Q (8 * reference_bands).

(** A descriptor whose entries are all distinct. *)
Definition ramp_lbd : descriptor :=
  map (fun k => inject_Z (Z.of_nat k)) (seq 0 (8 * reference_bands)).

(** A band of constant row sums (any values would do). *)
Definition unit_rows (j h : nat) : V4 := {| v1 := 1; v2 := 1; v3 := 1; v4 := 1 |}.

(** A concrete instance of the detector's collaborators, for witnesses. *)
Definition blur_id (im : image) : image := im.
Definition shrink (r : Z) (im : image) : image :=
  {| img_rows := img_rows im / Z.to_nat r; img_cols := img_cols im / Z.to_nat r;
     img_data := img_data im |}.
Definition two_segments (oct : nat) (lvl mask : image) : list segment :=
  [{| seg_sx := 1; seg_sy := 2; seg_ex := 3; seg_ey := 4 |};
   {| seg_sx := 0; seg_sy := 0; seg_ex := 5; seg_ey := 0 |}].
Definition atan_zero (y x : Q) : Q := 0.
Definition sqrt_self (x : Q) : Q := x.
Definition pixels_zero (sg : segment) : Z := 0.
Definition img4 : image := {| img_rows := 4; img_cols := 4; img_data := repeat 0%Q 16 |}.
Definition no_mask : image := {| img_rows := 0; img_cols := 0; img_data := [] |}.
Definition mask1 : image := {| img_rows := 1; img_cols := 1; img_data := [1%Q] |}.

(** Row sums of a support region without any gradient. *)
Definition zero_rows (j h : nat) : V4 := {| v1 := 0; v2 := 0; v3 := 0; v4 := 0 |}.

Abbreviation detect_ex :=
  (detect blur_id shrink two_segments atan_zero sqrt_self pixels_zero).

End Samples.

(* ================================================================== *)
(** * Proofs *)

Module HammingFacts.
Import Hamming.

Lemma hamming_nil_r (a : code) : hamming a [] = 0.
Proof. by destruct a. Qed.

Lemma hamming_take_drop (n : nat) (a b : code) :
  hamming a b = hamming (take n a) (take n b) + hamming (drop n a) (drop n b).
Proof.
  revert a b. induction n as [|n IH]; intros a b; [reflexivity|].
  destruct a as [|x a]; [reflexivity|].
  destruct b as [|y b]; simpl; [by rewrite !hamming_nil_r|].
  rewrite (IH a b). lia.
Qed.

(** The substring distances add up to at most the full distance. *)
Lemma split_sizes_hamming (sizes : list nat) (a b : code) :
  sum_list (zip_with hamming (split_sizes sizes a) (split_sizes sizes b))
  <= hamming a b.
Proof.
  revert a b. induction sizes as [|n s IH]; intros a b; simpl; [lia|].
  rewrite (hamming_take_drop n a b). specialize (IH (drop n a) (drop n b)). lia.
Qed.

Lemma length_split_sizes (sizes : list nat) (c : code) :
  length (split_sizes sizes c) = length sizes.
Proof.
  revert c. induction sizes as [|n s IH]; intros c; simpl; [done|].
  by rewrite IH.
Qed.

Lemma length_substrings (m : nat) (c : code) : length (substrings m c) = m.
Proof.
  unfold substrings, chunk_sizes.
  by rewrite length_split_sizes, length_map, length_seq.
Qed.

(** Pigeonhole: among [m] numbers summing to at most [r], one is at most
    [r / m]. *)
Lemma pigeonhole_div (l : list nat) (r : nat) :
  0 < length l -> sum_list l <= r ->
  exists i x, l !! i = Some x /\ x <= r / length l.
Proof.
  intros Hpos Hsum.
  destruct (decide (Forall (fun x => r / length l < x) l)) as [Hall|Hnot].
  - exfalso.
    assert (Hge : length l * S (r / length l) <= sum_list l).
    { clear Hpos Hsum. revert Hall. generalize (r / length l) as k. intros k Hk.
      induction l as [|x l IH]; simpl; [lia|].
      apply Forall_cons in Hk as [Hx Hk]. specialize (IH Hk). lia. }
    pose proof (Nat.div_mod r (length l) ltac:(lia)) as Hdm.
    pose proof (Nat.mod_upper_bound r (length l) ltac:(lia)) as Hmb.
    nia.
  - apply (not_Forall_Exists _) in Hnot.
    apply Exists_exists in Hnot as [x [Hin Hx]].
    apply list_elem_of_lookup_1 in Hin as [i Hi].
    simpl in Hx.
    exists i, x. split; [done|lia].
Qed.

(** Some substring of two codes at distance at most [r] differs in at
    most [r / m] bits. *)
Lemma substring_pigeonhole (m r : nat) (q c : code) :
  0 < m -> hamming q c <= r ->
  exists i, i < m /\ hamming (substring m i q) (substring m i c) <= r / m.
Proof.
  intros Hm Hd.
  set (l := zip_with hamming (substrings m q) (substrings m c)).
  assert (Hlen : length l = m).
  { unfold l. rewrite length_zip_with, !length_substrings. lia. }
  assert (Hsum : sum_list l <= r).
  { unfold l, substrings. pose proof (split_sizes_hamming
      (chunk_sizes code_bits m) q c). lia. }
  destruct (pigeonhole_div l r ltac:(lia) Hsum) as (i & x & Hi & Hx).
  rewrite Hlen in Hx.
  apply lookup_zip_with_Some in Hi as (a & b & -> & Ha & Hb).
  exists i. split; [rewrite <- (length_substrings m q); by eapply lookup_lt_Some|].
  unfold substring. rewrite (nth_lookup_Some _ _ _ _ Ha), (nth_lookup_Some _ _ _ _ Hb).
  done.
Qed.

(** Sizes of the substrings: [m * (b / m) + b mod m = b] bits in all. *)
Lemma sum_chunk_len_prefix (b m n : nat) :
  sum_list (map (chunk_len b m) (seq 0 n)) = n * (b / m) + Nat.min n (b mod m).
Proof.
  induction n as [|n IH]; [reflexivity|].
  rewrite seq_S, map_app, sum_list_with_app, IH. simpl. unfold chunk_len.
  destruct (b mod m) as [|k]; [rewrite Nat.min_0_r; simpl; lia|].
  destruct (Nat.ltb_spec n (S k)); lia.
Qed.

Lemma sum_chunk_sizes (b m : nat) : 0 < m -> sum_list (chunk_sizes b m) = b.
Proof.
  intros Hm. unfold chunk_sizes. rewrite sum_chunk_len_prefix.
  pose proof (Nat.div_mod b m ltac:(lia)).
  pose proof (Nat.mod_upper_bound b m ltac:(lia)). lia.
Qed.

Lemma length_chunk_sizes (b m : nat) : length (chunk_sizes b m) = m.
Proof. unfold chunk_sizes. by rewrite length_map, length_seq. Qed.

(** Each substring size is [floor (b / m)] or [ceil (b / m)]. *)
Lemma chunk_len_floor_ceil (b m i : nat) :
  0 < m -> chunk_len b m i = b / m \/ chunk_len b m i = (b + m - 1) / m.
Proof.
  intros Hm. unfold chunk_len.
  destruct (Nat.ltb_spec i (b mod m)) as [Hlt|Hge]; [right|left; lia].
  pose proof (Nat.div_mod b m ltac:(lia)) as Hdm.
  pose proof (Nat.mod_upper_bound b m ltac:(lia)) as Hmb.
  apply (Nat.div_unique _ _ _ (b mod m - 1)); lia.
Qed.

Lemma length_split_sizes_nth (sizes : list nat) (c : code) (i : nat) :
  sum_list sizes <= length c -> i < length sizes ->
  length (nth i (split_sizes sizes c) []) = nth i sizes 0.
Proof.
  revert c i. induction sizes as [|n s IH]; intros c i Hsum Hi; simpl in *; [lia|].
  destruct i as [|i].
  - rewrite length_take. lia.
  - apply IH; [rewrite length_drop; lia|lia].
Qed.

Lemma length_substring (m i : nat) (c : code) :
  0 < m -> length c = code_bits -> i < m ->
  length (substring m i c) = chunk_len code_bits m i.
Proof.
  intros Hm Hc Hi. unfold substring, substrings.
  rewrite length_split_sizes_nth.
  - unfold chunk_sizes. rewrite nth_lookup_Some with (x := chunk_len code_bits m i); [done|].
    by rewrite list_lookup_fmap, lookup_seq_lt.
  - rewrite sum_chunk_sizes; lia.
  - by rewrite length_chunk_sizes.
Qed.

End HammingFacts.

Module MIHFacts.
Import Hamming HammingFacts MIH.

Lemma table_add_mono (k k' : code) (id x : nat) (t : table) :
  x ∈ default [] (t !! k') -> x ∈ default [] (table_add k id t !! k').
Proof.
  unfold table_add. intros Hx. destruct (decide (k = k')) as [<-|Hne].
  - rewrite lookup_insert_eq. simpl. set_solver.
  - by rewrite lookup_insert_ne.
Qed.

Lemma table_add_new (k : code) (id : nat) (t : table) :
  id ∈ default [] (table_add k id t !! k).
Proof. unfold table_add. rewrite lookup_insert_eq. simpl. set_solver. Qed.

Lemma fill_table_mono (m i id : nat) (cs : list code) (t : table) (k : code) (x : nat) :
  x ∈ default [] (t !! k) -> x ∈ default [] (fill_table m i id cs t !! k).
Proof.
  revert id t. induction cs as [|c cs IH]; intros id t Hx; simpl; [done|].
  apply IH. by apply table_add_mono.
Qed.

(** Every dataset code is filed under its [i]-th substring. *)
Lemma fill_table_lookup (m i id0 : nat) (cs : list code) (t : table) (id : nat) (c : code) :
  cs !! id = Some c ->
  id0 + id ∈ default [] (fill_table m i id0 cs t !! substring m i c).
Proof.
  revert id0 t id. induction cs as [|c' cs IH]; intros id0 t id Hid; [done|].
  destruct id as [|id]; simpl in Hid |- *.
  - injection Hid as ->. apply fill_table_mono. rewrite Nat.add_0_r.
    apply table_add_new.
  - replace (id0 + S id) with (S id0 + id) by lia. by apply IH.
Qed.

Lemma probe_complete (t : table) (k qk : code) (ids : list nat) (s id : nat) :
  t !! k = Some ids -> id ∈ ids -> hamming k qk <= s -> id ∈ probe t qk s.
Proof.
  intros Hk Hid Hd. unfold probe.
  apply list_elem_of_In, in_concat. exists ids. split; [|by apply list_elem_of_In].
  apply list_elem_of_In, list_elem_of_fmap. exists (k, ids). split; [done|].
  apply list_elem_of_filter. split; [done|]. by apply elem_of_map_to_list.
Qed.

(** A code whose [i]-th substring lies within [s] bits of the query's is a
    candidate. *)
Lemma candidates_complete (m s i id : nat) (cs : list code) (q c : code) :
  i < m -> cs !! id = Some c ->
  hamming (substring m i c) (substring m i q) <= s ->
  id ∈ candidates (build_index m cs) q s.
Proof.
  intros Hi Hid Hd. unfold candidates. apply elem_of_remove_dups.
  pose proof (fill_table_lookup m i 0 cs ∅ id c Hid) as Hin. simpl in Hin.
  change (fill_table m i 0 cs ∅) with (build_table m i cs) in Hin.
  destruct (build_table m i cs !! substring m i c) as [ids|] eqn:Hk;
    [|simpl in Hin; set_solver].
  apply list_elem_of_In, in_concat.
  exists (probe (build_table m i cs) (substring m i q) s). split.
  - apply list_elem_of_In, list_elem_of_lookup. exists i.
    rewrite list_lookup_imap. simpl.
    rewrite list_lookup_fmap, lookup_seq_lt by done. reflexivity.
  - apply list_elem_of_In. eapply probe_complete; [exact Hk|exact Hin|done].
Qed.

(** Every candidate within [maxD] of the query is reported. *)
Lemma radius_match_keep (idx : index) (maxD id : nat) (q c : code) :
  id ∈ candidates idx q (maxD / idx_m idx) -> idx_codes idx !! id = Some c ->
  hamming q c <= maxD -> (id, hamming q c) ∈ radius_match idx maxD q.
Proof.
  intros Hc Hid Hd. unfold radius_match. apply list_elem_of_omap.
  exists id. split; [done|]. simpl. rewrite Hid. simpl.
  by rewrite decide_True.
Qed.

Lemma hamming_sym (a b : code) : hamming a b = hamming b a.
Proof.
  revert b. induction a as [|x a IH]; intros [|y b]; simpl; try done.
  rewrite IH. by destruct x, y.
Qed.

End MIHFacts.

Module MatcherClaims.
Import Hamming HammingFacts MIH MIHFacts Samples.

(** C1 (recall of radius queries): for a committed dataset [cs] indexed
    with [m] substrings, every dataset code [c] within [r] bits of the
    query [q] is reported by a radius query with [maxD >= r] (some
    substring table, probed within [maxD / m] bits, retrieves it), and a
    candidate dropped by the final full-code check is farther than [r]. *)
Theorem radius_match_recall (m r maxD id : nat) (cs : list code) (q c : code) :
  0 < m -> cs !! id = Some c -> hamming q c <= r -> r <= maxD ->
  (id, hamming q c) ∈ radius_match (build_index m cs) maxD q /\
  (forall id' c', id' ∈ candidates (build_index m cs) q (maxD / m) ->
     cs !! id' = Some c' ->
     (id', hamming q c') ∉ radius_match (build_index m cs) maxD q ->
     r < hamming q c').
Proof.
  intros Hm Hid Hd Hr. split.
  - destruct (substring_pigeonhole m maxD q c Hm ltac:(lia)) as (i & Hi & Hsub).
    apply radius_match_keep; [|done|lia]. simpl.
    eapply candidates_complete; [exact Hi|exact Hid|].
    by rewrite hamming_sym.
  - intros id' c' Hcand Hid' Hout.
    destruct (decide (hamming q c' <= maxD)) as [Hle|Hgt]; [|lia].
    exfalso. apply Hout. by apply radius_match_keep.
Qed.

Lemma radius_match_recall_witness :
  (1, hamming zero_code two_bit_code)
    ∈ radius_match (build_index 4 [zero_code; two_bit_code]) 3 zero_code.
Proof.
  exact (proj1 (radius_match_recall 4 2 3 1 [zero_code; two_bit_code]
    zero_code two_bit_code ltac:(lia) eq_refl ltac:(vm_compute; lia)
    ltac:(lia))).
Defined.

(** C5 (staging and training): [add] appends to the staging area and
    leaves the committed index, hence every query, unchanged; a
    successful [train] commits an index built from the staged codes only,
    with one table per substring, substrings of [floor (256 / m)] or
    [ceil (256 / m)] bits, and empties the staging area. *)
Theorem add_train_frame (st : matcher) (ds : list (list code)) :
  (staged (add ds st) = staged st ++ ds /\
   committed (add ds st) = committed st /\
   (forall qs maxD, radius_query (add ds st) qs maxD = radius_query st qs maxD)) /\
  (forall st', train st = inr st' ->
     let cs := concat (staged st) in
     let m := mt_m st in
     staged st' = [] /\ mt_m st' = m /\
     committed st' = Some (build_index m cs) /\
     idx_codes (build_index m cs) = cs /\
     length (idx_tables (build_index m cs)) = m /\
     (forall i, i < m -> idx_tables (build_index m cs) !! i = Some (build_table m i cs)) /\
     (0 < m -> forall c i, c ∈ cs -> length c = code_bits -> i < m ->
        length (substring m i c) = code_bits / m \/
        length (substring m i c) = (code_bits + m - 1) / m)).
Proof.
  split; [split_and!; reflexivity|].
  intros st' Htr cs m. unfold train in Htr. fold cs in Htr.
  destruct cs as [|c0 cs0] eqn:Hcs; [discriminate|].
  injection Htr as <-. rewrite <- Hcs. simpl.
  split_and!; try reflexivity.
  - by rewrite length_map, length_seq.
  - intros i Hi. by rewrite list_lookup_fmap, lookup_seq_lt.
  - intros Hm c i _ Hc Hi. rewrite length_substring by done.
    by apply chunk_len_floor_ceil.
Qed.

Lemma add_train_frame_witness :
  exists st', train (add [[two_bit_code]] (add [[zero_code]] (new_matcher 4))) = inr st' /\
    staged st' = [].
Proof.
  eexists. split; [reflexivity|].
  apply (proj2 (add_train_frame (add [[two_bit_code]] (add [[zero_code]] (new_matcher 4))) [])).

  reflexivity.
Defined.

End MatcherClaims.

Module BinarizerFacts.
Import Hamming HammingFacts Binarizer.

Lemma length_pair_byte (d : descriptor) (p : nat * nat) : length (pair_byte d p) = 8.
Proof. unfold pair_byte. by rewrite length_map, length_seq. Qed.

Lemma length_canonical_pairs : length canonical_pairs = 32.
Proof. reflexivity. Qed.

Lemma length_concat_const {A B} (f : A -> list B) (n : nat) (l : list A) :
  (forall x, length (f x) = n) -> length (concat (map f l)) = n * length l.
Proof.
  intros Hf. induction l as [|x l IH]; simpl; [lia|].
  rewrite length_app, Hf, IH. lia.
Qed.

Lemma length_binarize (d : descriptor) : length (binarize d) = code_bits.
Proof.
  unfold binarize. rewrite (length_concat_const _ 8); [reflexivity|].
  apply length_pair_byte.
Qed.

(** Bit [i] of a concatenation of 8-bit blocks. *)
Lemma nth_concat_bytes {A} (f : A -> list bool) (l : list A) (a0 : A) (i : nat) :
  (forall x, length (f x) = 8) -> i < 8 * length l ->
  nth i (concat (map f l)) false = nth (i mod 8) (f (nth (i / 8) l a0)) false.
Proof.
  intros Hf. revert i. induction l as [|x l IH]; intros i Hi; simpl in Hi; [lia|].
  cbn [map concat].
  destruct (Nat.ltb_spec i 8) as [Hlt|Hge].
  - rewrite app_nth1 by (rewrite Hf; lia).
    rewrite Nat.mod_small, Nat.div_small by lia. reflexivity.
  - rewrite app_nth2 by (rewrite Hf; lia). rewrite Hf.
    assert (Hi' : i = (i - 8) + 1 * 8) by lia.
    rewrite Hi' at 2 3.
    rewrite Nat.Div0.mod_add, Nat.div_add by lia. rewrite Nat.add_1_r.
    simpl. apply IH. lia.
Qed.

Lemma nth_pair_byte (d : descriptor) (p : nat * nat) (k : nat) :
  k < 8 -> nth k (pair_byte d p) false = gt_bit (bd_entry d p.1 k) (bd_entry d p.2 k).
Proof.
  intros Hk. unfold pair_byte. apply nth_lookup_Some.
  by rewrite list_lookup_fmap, lookup_seq_lt.
Qed.

(** Bit [i] of a code is the comparison of the two entries [compared]. *)
Lemma nth_binarize (d : descriptor) (i : nat) :
  i < code_bits ->
  nth i (binarize d) false = gt_bit (compared d i).1 (compared d i).2.
Proof.
  intros Hi. unfold binarize, compared.
  rewrite (nth_concat_bytes _ _ (0, 0)); [|apply length_pair_byte|done].
  apply nth_pair_byte, Nat.mod_upper_bound. lia.
Qed.

Lemma bd_entry_negate (d : descriptor) (j k : nat) :
  bd_entry (negate d) j k = (- bd_entry d j k)%Q.
Proof.
  unfold bd_entry, negate. change 0%Q with (- 0)%Q at 1. apply map_nth.
Qed.

Lemma compared_negate (d : descriptor) (i : nat) :
  compared (negate d) i = ((- (compared d i).1)%Q, (- (compared d i).2)%Q).
Proof. unfold compared. by rewrite !bd_entry_negate. Qed.

Lemma Qle_bool_opp (x y : Q) : Qle_bool (- x) (- y) = Qle_bool y x.
Proof.
  apply Bool.eq_true_iff_eq. rewrite !Qle_bool_iff. split; intros H.
  - rewrite <- (Qopp_involutive x), <- (Qopp_involutive y).
    by apply Qopp_le_compat.
  - by apply Qopp_le_compat.
Qed.

(** Flipping both compared entries complements a strict comparison
    unless the entries are equal, where both comparisons are false. *)
Lemma gt_bit_opp (x y : Q) :
  gt_bit (- x) (- y) = if Qeq_bool x y then gt_bit x y else negb (gt_bit x y).
Proof.
  unfold gt_bit. rewrite Qle_bool_opp.
  destruct (Qeq_bool x y) eqn:Heq.
  - apply Qeq_bool_iff in Heq.
    assert (Hxy : Qle_bool x y = true) by (apply Qle_bool_iff; rewrite Heq; apply Qle_refl).
    assert (Hyx : Qle_bool y x = true) by (apply Qle_bool_iff; rewrite Heq; apply Qle_refl).
    by rewrite Hxy, Hyx.
  - rewrite negb_involutive.
    destruct (Qle_bool y x) eqn:Hyx, (Qle_bool x y) eqn:Hxy; try reflexivity.
    + apply Qle_bool_iff in Hyx, Hxy.
      assert (x == y) by (apply Qle_antisym; done).
      apply Qeq_bool_iff in H. congruence.
    + apply Bool.not_true_iff_false in Hyx, Hxy.
      rewrite Qle_bool_iff in Hyx, Hxy. exfalso.
      destruct (Qlt_le_dec x y) as [Hl|Hl]; [apply Hxy, Qlt_le_weak|apply Hyx]; done.
Qed.

End BinarizerFacts.

Module BinarizerClaims.
Import Hamming HammingFacts Binarizer BinarizerFacts Samples.

(** C2 (fixed 256-bit codes): whatever the descriptor length (hence the
    band count), the binariser emits one code per descriptor, made of the
    8-bit comparison bytes of the 32 canonical pairs in pair order, 256
    bits in all; the matcher's substrings cover exactly 256 bits. *)
Theorem binarize_fixed_width (ds : list descriptor) :
  binarize_batch ds = map binarize ds /\
  length (binarize_batch ds) = length ds /\
  length canonical_pairs = 32 /\
  (forall d : descriptor,
     binarize d = concat (map (pair_byte d) canonical_pairs) /\
     Forall (fun byte => length byte = 8) (map (pair_byte d) canonical_pairs) /\
     length (binarize d) = code_bits) /\
  code_bits = 256 /\
  (forall k, sum_list (chunk_sizes code_bits (S k)) = code_bits).
Proof.
  split_and!; try reflexivity.
  - unfold binarize_batch. by rewrite length_map.
  - intros d. split_and!; [reflexivity| |apply length_binarize].
    apply Forall_forall. intros byte Hb.
    apply list_elem_of_fmap in Hb as [p [-> _]]. apply length_pair_byte.
  - intros k. apply sum_chunk_sizes. lia.
Qed.

(** C7, as stated, fails: the all-zero descriptor is its own negation, so
    its code is not complemented at any position. *)
Lemma binarize_negate_not_complement :
  binarize (negate zero_lbd) = binarize zero_lbd /\
  binarize zero_lbd <> map negb (binarize zero_lbd).
Proof. split; [vm_compute; reflexivity|vm_compute; discriminate]. Qed.

(** C7 (amended): binarisation is a deterministic per-descriptor function
    (batch entry [j] depends on descriptor [j] only); negating a
    descriptor complements every bit whose two compared entries differ,
    and leaves a bit whose compared entries are equal at 0 in both codes. *)
Theorem binarize_negate (ds : list descriptor) (d : descriptor) (i : nat) :
  i < code_bits ->
  binarize d = binarize d /\
  (forall j, binarize_batch ds !! j = binarize <$> ds !! j) /\
  nth i (binarize (negate d)) false =
    (if Qeq_bool (compared d i).1 (compared d i).2
     then nth i (binarize d) false
     else negb (nth i (binarize d) false)) /\
  (Qeq_bool (compared d i).1 (compared d i).2 = true ->
     nth i (binarize d) false = false /\ nth i (binarize (negate d)) false = false).
Proof.
  intros Hi. split_and!; [reflexivity| |..].
  - intros j. apply list_lookup_fmap.
  - rewrite !nth_binarize by done. rewrite compared_negate. simpl.
    apply gt_bit_opp.
  - intros Heq. rewrite !nth_binarize by done. rewrite compared_negate.
    destruct (compared d i) as [a b]. simpl in *.
    unfold gt_bit. rewrite Qle_bool_opp. apply Qeq_bool_iff in Heq.
    assert (H1 : Qle_bool a b = true)
      by (apply Qle_bool_iff; rewrite Heq; apply Qle_refl).
    assert (H2 : Qle_bool b a = true)
      by (apply Qle_bool_iff; rewrite Heq; apply Qle_refl).
    by rewrite H1, H2.
Qed.

Lemma binarize_negate_witness :
  nth 0 (binarize (negate ramp_lbd)) false = negb (nth 0 (binarize ramp_lbd) false).
Proof.
  exact (proj1 (proj2 (proj2 (binarize_negate [] ramp_lbd 0 ltac:(vm_compute; lia))))).
Defined.

End BinarizerClaims.

Module BandsFacts.
Import Bands BinarizerFacts.

(** Row [h] lies in band [j] or a neighbour of it exactly when it lies
    in rows [(j - 1) w .. (j + 2) w - 1]. *)
Lemma band_row_iff (w j h : nat) :
  0 < w ->
  (j <= S (h / w) /\ h / w <= S j) <-> ((j - 1) * w <= h /\ h < (j + 2) * w).
Proof.
  intros Hw.
  pose proof (Nat.div_mod h w ltac:(lia)) as Hdm.
  pose proof (Nat.mod_upper_bound h w ltac:(lia)) as Hmb.
  set (q := h / w) in *. set (r := h mod w) in *.
  split; intros [H1 H2]; split.
  - assert (j - 1 <= q) by lia. nia.
  - assert (q < j + 2) by lia. nia.
  - destruct (Nat.leb_spec (j - 1) q); [lia|]. exfalso. nia.
  - destruct (Nat.ltb_spec q (j + 2)); [lia|]. exfalso. nia.
Qed.

Lemma length_filter_interval (a b n : nat) :
  a <= b ->
  length (filter (fun h => a <= h /\ h < b) (seq 0 n)) = Nat.min b n - Nat.min a n.
Proof.
  intros Hab. induction n as [|n IH]; [simpl; lia|].
  rewrite seq_S, filter_app, length_app, IH. simpl.
  unfold filter. simpl. case_decide; simpl; lia.
Qed.

(** Rows of band [j]: [2 w] for the first and last band, [3 w] for the
    others, once there are at least two bands. *)
Lemma length_band_rows (m w j : nat) :
  2 <= m -> j < m ->
  length (band_rows m w j) = (if (j =? 0) || (j =? m - 1) then 2 * w else 3 * w).
Proof.
  intros Hm Hj. destruct (Nat.eq_dec w 0) as [->|Hw].
  { unfold band_rows. rewrite Nat.mul_0_r. simpl. by destruct (_ || _). }
  unfold band_rows.
  rewrite (list_filter_iff _ (fun h => (j - 1) * w <= h /\ h < (j + 2) * w))
    by (intros h; apply band_row_iff; lia).
  rewrite length_filter_interval by nia.
  destruct (Nat.eqb_spec j 0) as [->|Hj0]; simpl.
  - assert (2 * w <= m * w) by nia. lia.
  - destruct (Nat.eqb_spec j (m - 1)) as [->|Hjm]; simpl.
    + assert ((m - 1 - 1) * w <= m * w) by nia.
      assert (m * w <= (m - 1 + 2) * w) by nia.
      assert (m * w - (m - 1 - 1) * w = 2 * w); [|lia].
      replace m with ((m - 1 - 1) + 2) at 1 by lia. nia.
    + assert ((j + 2) * w <= m * w) by nia.
      assert ((j - 1) * w <= (j + 2) * w) by nia.
      assert ((j + 2) * w - (j - 1) * w = 3 * w); [|lia].
      replace (j + 2) with ((j - 1) + 3) by lia. nia.
Qed.

Lemma length_band_descriptor (m w : nat) rs sq (j : nat) :
  length (band_descriptor m w rs sq j) = 8.
Proof. reflexivity. Qed.

Lemma length_lbd (m w : nat) rs sq : length (lbd m w rs sq) = 8 * m.
Proof.
  unfold lbd. rewrite (length_concat_const _ 8).
  - by rewrite length_seq.
  - intros j. apply length_band_descriptor.
Qed.

End BandsFacts.

Module BandsClaims.
Import Binarizer Bands BandsFacts Samples.

(** C3 (band description matrices): when the support region has
    several bands (the band count is internal to the descriptor engine and
    not configurable; a first/last versus interior band exists only for
    [m >= 2]), the matrix of band [j] is [4 x n] with [n = 2 w] for the
    first and last band and [n = 3 w] otherwise; for every band count the
    descriptor is the concatenation in band order of the (mean, standard
    deviation) pairs of the bands, of length [8 m]. *)
Theorem band_matrix_shape (m w : nat) (row_sums : nat -> nat -> V4) (sqrt_q : Q -> Q) :
  (forall j, 2 <= m -> j < m ->
     length (bdm m w row_sums j) = 4 /\
     Forall (fun row => length row =
               (if (j =? 0) || (j =? m - 1) then 2 * w else 3 * w))
            (bdm m w row_sums j)) /\
  lbd m w row_sums sqrt_q =
    concat (map (fun b => map q_mean (bdm m w row_sums b)
                          ++ map (q_std sqrt_q) (bdm m w row_sums b))
                (seq 0 m)) /\
  length (lbd m w row_sums sqrt_q) = 8 * m.
Proof.
  split_and!.
  - intros j Hm Hj. split; [reflexivity|].
    rewrite <- (length_band_rows m w j Hm Hj). unfold bdm.
    rewrite !Forall_cons. split_and!; try apply Forall_nil_2; by rewrite !length_map.
  - reflexivity.
  - apply length_lbd.
Qed.

Lemma band_matrix_shape_witness :
  Forall (fun row => length row = 2 * 7) (bdm reference_bands 7 unit_rows 0).
Proof.
  exact (proj2 (proj1 (band_matrix_shape reference_bands 7 unit_rows id)
                  0 ltac:(unfold reference_bands; lia) ltac:(unfold reference_bands; lia))).
Defined.

End BandsClaims.

Module DetectionFacts.
Import KeyLines Detection.

Lemma filter_all {A} (P : A -> Prop) `{!forall x, Decision (P x)} (l : list A) :
  Forall P l -> filter P l = l.
Proof.
  induction 1 as [|x l Hx _ IH]; [done|]. by rewrite filter_cons_True, IH.
Qed.

Lemma filter_none {A} (P : A -> Prop) `{!forall x, Decision (P x)} (l : list A) :
  Forall (fun x => ~ P x) l -> filter P l = [].
Proof.
  induction 1 as [|x l Hx _ IH]; [done|]. by rewrite filter_cons_False, IH.
Qed.

Section WithOps.
Variable gaussian_blur : image -> image.
Variable downsample : Z -> image -> image.
Variable lsd : nat -> image -> image -> list segment.
Variable atan2_q : Q -> Q -> Q.
Variable sqrt_q : Q -> Q.
Variable line_pixels : segment -> Z.

Abbreviation mk := (make_keyline atan2_q sqrt_q line_pixels).
Abbreviation asm := (assemble lsd atan2_q sqrt_q line_pixels).

Lemma lookup_imap_keyline (ratio : Z) (lvl : image) (oct : nat) (segs : list segment)
    (j : nat) (kl : KeyLine) :
  imap (mk ratio lvl oct) segs !! j = Some kl ->
  exists sg, segs !! j = Some sg /\ kl = mk ratio lvl oct j sg.
Proof.
  rewrite list_lookup_imap. destruct (segs !! j) as [sg|]; simpl; [|done].
  intros [= <-]. eauto.
Qed.

Lemma imap_keyline_octave (ratio : Z) (lvl : image) (oct : nat) (segs : list segment) :
  Forall (fun kl => octave kl = Z.of_nat oct) (imap (mk ratio lvl oct) segs).
Proof.
  apply Forall_lookup_2. intros j kl Hj.
  apply lookup_imap_keyline in Hj as (sg & _ & ->). reflexivity.
Qed.

Lemma assemble_octave_ge (ratio : Z) (mask : image) (oct : nat) (levels : list image) :
  Forall (fun kl => (Z.of_nat oct <= octave kl)%Z) (asm ratio mask oct levels).
Proof.
  revert oct. induction levels as [|lvl rest IH]; intros oct; simpl; [done|].
  apply Forall_app. split.
  - eapply Forall_impl; [apply imap_keyline_octave|]. simpl. lia.
  - eapply Forall_impl; [apply IH|]. simpl. lia.
Qed.

(** Every record of [assemble] is the record built from some segment of
    its octave. *)
Lemma assemble_records (ratio : Z) (mask : image) (oct : nat) (levels : list image) :
  Forall (fun kl => exists o lvl id sg, kl = mk ratio lvl o id sg)
         (asm ratio mask oct levels).
Proof.
  revert oct. induction levels as [|lvl rest IH]; intros oct; simpl; [done|].
  apply Forall_app. split; [|apply IH].
  apply Forall_lookup_2. intros j kl Hj.
  apply lookup_imap_keyline in Hj as (sg & _ & ->). eauto.
Qed.

(** The class id of a record is the number of records of its octave
    emitted before it. *)
Lemma assemble_class_id (ratio : Z) (mask : image) (oct : nat) (levels : list image)
    (p : nat) (kl : KeyLine) :
  asm ratio mask oct levels !! p = Some kl ->
  class_id kl = Z.of_nat (length (filter (fun kl' => octave kl' = octave kl)
                                          (take p (asm ratio mask oct levels)))).
Proof.
  revert oct p. induction levels as [|lvl rest IH]; intros oct p Hp; [done|].
  simpl in Hp |- *.
  set (B := imap (mk ratio lvl oct) (lsd oct lvl mask)) in *.
  destruct (Nat.ltb_spec p (length B)) as [Hlt|Hge].
  - rewrite lookup_app_l in Hp by done.
    rewrite take_app_le by lia.
    pose proof Hp as Hp'. apply lookup_imap_keyline in Hp' as (sg & _ & ->).
    rewrite filter_all.
    + simpl. by rewrite length_take_le by lia.
    + eapply Forall_impl; [apply Forall_take, imap_keyline_octave|]. done.
  - rewrite lookup_app_r in Hp by done.
    rewrite take_app_ge by done. rewrite filter_app.
    rewrite (filter_none _ B).
    + simpl. by apply IH.
    + pose proof (Forall_lookup_1 _ _ _ _ (assemble_octave_ge ratio mask (S oct) rest) Hp) as Hge'.
      eapply Forall_impl; [apply imap_keyline_octave|]. intros x Hx. simpl in Hge', Hx. lia.
Qed.

End WithOps.

End DetectionFacts.

Module DetectionClaims.
Import KeyLines Detection DetectionFacts Samples.

Lemma length_pyramid_levels gb dsm (ratio : Z) (n : nat) (im : image) :
  length (pyramid_levels gb dsm ratio n im) = n.
Proof.
  revert im. induction n as [|n IH]; intros im; simpl; [done|]. by rewrite IH.
Qed.

Lemma detect_inr gb dsm lsd atn sq lp (im : image) (scale n : Z) (mask : image) kls :
  detect gb dsm lsd atn sq lp im scale n mask = inr kls ->
  exists levels, build_pyramid gb dsm im n scale = inr levels /\
                 kls = assemble lsd atn sq lp scale mask 0 levels.
Proof.
  unfold detect. destruct (mask_mismatch im mask); [discriminate|].
  destruct (build_pyramid gb dsm im n scale) as [e|levels]; [discriminate|].
  intros [= <-]. eauto.
Qed.

(** C4 (coordinates): every record produced by detection has original
    coordinates equal to its octave coordinates times
    [reduction_ratio ^ octave] (exactly, in the model). *)
Theorem detect_coordinates_scaled gb dsm lsd atn sq lp (im : image) (scale n : Z)
    (mask : image) (kls : list KeyLine) :
  detect gb dsm lsd atn sq lp im scale n mask = inr kls ->
  Forall (fun kl =>
    start_point_x kl = (s_point_in_octave_x kl * inject_Z scale ^ octave kl)%Q /\
    start_point_y kl = (s_point_in_octave_y kl * inject_Z scale ^ octave kl)%Q /\
    end_point_x kl = (e_point_in_octave_x kl * inject_Z scale ^ octave kl)%Q /\
    end_point_y kl = (e_point_in_octave_y kl * inject_Z scale ^ octave kl)%Q) kls.
Proof.
  intros Hd. apply detect_inr in Hd as (levels & _ & ->).
  eapply Forall_impl; [apply assemble_records|].
  intros kl (o & lvl & id & sg & ->). simpl. split_and!; reflexivity.
Qed.

Lemma detect_coordinates_scaled_witness :
  exists kls, detect_ex img4 2 3 no_mask = inr kls /\
    Forall (fun kl =>
      start_point_x kl = (s_point_in_octave_x kl * inject_Z 2 ^ octave kl)%Q /\
      start_point_y kl = (s_point_in_octave_y kl * inject_Z 2 ^ octave kl)%Q /\
      end_point_x kl = (e_point_in_octave_x kl * inject_Z 2 ^ octave kl)%Q /\
      end_point_y kl = (e_point_in_octave_y kl * inject_Z 2 ^ octave kl)%Q) kls.
Proof.
  eexists. split; [reflexivity|].
  apply (detect_coordinates_scaled blur_id shrink two_segments atan_zero sqrt_self
           pixels_zero img4 2 3 no_mask). reflexivity.
Defined.

(** C6 (grouping identifier): the class id of each record is its emission
    order within its octave (the number of earlier records of the same
    octave); in single-octave detection all records are of octave 0 and
    the ids are [0, 1, ...], so no two records share an id. *)
Theorem detect_class_id_order gb dsm lsd atn sq lp (im : image) (scale n : Z)
    (mask : image) (kls : list KeyLine) :
  detect gb dsm lsd atn sq lp im scale n mask = inr kls ->
  (forall p kl, kls !! p = Some kl ->
     class_id kl = Z.of_nat (length (filter (fun kl' => octave kl' = octave kl)
                                             (take p kls)))) /\
  (n = 1%Z ->
     Forall (fun kl => octave kl = 0%Z) kls /\
     map class_id kls = map Z.of_nat (seq 0 (length kls)) /\
     NoDup (map class_id kls)).
Proof.
  intros Hd. apply detect_inr in Hd as (levels & Hpyr & ->).
  assert (Hid : forall p kl, assemble lsd atn sq lp scale mask 0 levels !! p = Some kl ->
     class_id kl = Z.of_nat (length (filter (fun kl' => octave kl' = octave kl)
                     (take p (assemble lsd atn sq lp scale mask 0 levels)))))
    by (intros; by eapply assemble_class_id).
  split; [exact Hid|].
  intros ->. unfold build_pyramid in Hpyr.
  destruct (img_empty im); [discriminate|]. simpl in Hpyr.
  injection Hpyr as <-.
  assert (Hoct : Forall (fun kl => octave kl = 0%Z)
                   (assemble lsd atn sq lp scale mask 0 [im])).
  { simpl. rewrite app_nil_r. exact (imap_keyline_octave atn sq lp scale im 0 _). }
  assert (Hmap : map class_id (assemble lsd atn sq lp scale mask 0 [im])
                 = map Z.of_nat (seq 0 (length (assemble lsd atn sq lp scale mask 0 [im])))).
  { apply list_eq. intros i. rewrite !list_lookup_fmap.
    destruct (assemble lsd atn sq lp scale mask 0 [im] !! i) as [kl|] eqn:Hi.
    - pose proof (lookup_lt_Some _ _ _ Hi) as Hlt.
      rewrite lookup_seq_lt by done. simpl. f_equal.
      rewrite (Hid i kl Hi), filter_all.
      + by rewrite length_take_le by lia.
      + eapply Forall_impl; [apply Forall_take, Hoct|].
        intros x Hx. rewrite Hx. symmetry.
        exact (Forall_lookup_1 _ _ _ _ Hoct Hi).
    - apply lookup_ge_None in Hi. by rewrite lookup_seq_ge. }
  split_and!; [exact Hoct|exact Hmap|].
  rewrite Hmap. apply NoDup_fmap_2; [apply _|apply NoDup_seq].
Qed.

Lemma detect_class_id_order_witness :
  exists kls, detect_ex img4 2 1 no_mask = inr kls /\
    map class_id kls = map Z.of_nat (seq 0 (length kls)).
Proof.
  eexists. split; [reflexivity|].
  apply (detect_class_id_order blur_id shrink two_segments atan_zero sqrt_self
           pixels_zero img4 2 1 no_mask); reflexivity.
Defined.

(** C8, as stated, fails: a valid image with a valid octave count is
    still refused when a non-empty mask has another size, although the
    pyramid for it is built. *)
Lemma detect_fails_on_mask :
  img_empty img4 = false /\ ~ (1 < 1)%Z /\
  (exists levels, build_pyramid blur_id shrink img4 1 2 = inr levels) /\
  detect_ex img4 2 1 mask1 = inl BadMask.
Proof.
  split_and!; [reflexivity|lia|eexists; reflexivity|reflexivity].
Qed.

(** C8 (amended): the pyramid builder fails exactly when the image is
    empty or the octave count is below 1, and otherwise returns that many
    images, the first being the input; multi-octave detection fails
    exactly in these cases and when a non-empty mask differs in size from
    the image.  A failure is an error value carrying no records. *)
Theorem detect_error_cases gb dsm lsd atn sq lp (im : image) (scale n : Z)
    (mask : image) :
  ((exists e, build_pyramid gb dsm im n scale = inl e) <->
     img_empty im = true \/ (n < 1)%Z) /\
  (forall levels, build_pyramid gb dsm im n scale = inr levels ->
     length levels = Z.to_nat n /\ levels !! 0 = Some im) /\
  ((exists e, detect gb dsm lsd atn sq lp im scale n mask = inl e) <->
     img_empty im = true \/ (n < 1)%Z \/ mask_mismatch im mask = true).
Proof.
  assert (Hpyr : (exists e, build_pyramid gb dsm im n scale = inl e) <->
                 img_empty im = true \/ (n < 1)%Z).
  { unfold build_pyramid. destruct (img_empty im).
    - split; [by left|eauto].
    - destruct (Z.ltb_spec n 1) as [Hn1|Hn1].
      + split; [by right|eauto].
      + split; [intros [e He]; discriminate|intros [Hc|Hc]; [discriminate|lia]]. }
  split_and!.
  - exact Hpyr.
  - intros levels Hl. unfold build_pyramid in Hl.
    destruct (img_empty im); [discriminate|].
    destruct (Z.ltb_spec n 1); [discriminate|].
    injection Hl as <-. rewrite length_pyramid_levels. split; [done|].
    destruct (Z.to_nat n) eqn:Hn; [lia|reflexivity].
  - unfold detect. destruct (mask_mismatch im mask).
    + split; [by right; right|eauto].
    + destruct (build_pyramid gb dsm im n scale) as [e|levels] eqn:Hb.
      * split; [intros _|eauto].
        destruct (proj1 Hpyr (ex_intro _ e eq_refl)) as [Hc|Hc]; [left|right; left]; done.
      * split; [intros [e He]; discriminate|].
        intros [H|[H|H]]; [| |discriminate];
          destruct (proj2 Hpyr) as [e He]; auto; congruence.
Qed.

Lemma detect_error_cases_witness :
  exists levels, build_pyramid blur_id shrink img4 3 2 = inr levels /\
    length levels = 3%nat.
Proof.
  eexists. split; [reflexivity|].
  apply (proj1 (proj2 (detect_error_cases blur_id shrink two_segments atan_zero
           sqrt_self pixels_zero img4 2 3 no_mask)) _ eq_refl).
Defined.

End DetectionClaims.

Module ConfigClaims.
Import Config.

(** C9 (configuration): each of the number of octaves, the band width and
    the (integer) reduction ratio reads back the value last set, and
    setting one leaves the other two unchanged. *)
Theorem config_set_get (bd : BinaryDescriptor) (v : Z) :
  (get_num_of_octaves (set_num_of_octaves v bd) = v /\
   get_width_of_band (set_num_of_octaves v bd) = get_width_of_band bd /\
   get_reduction_ratio (set_num_of_octaves v bd) = get_reduction_ratio bd) /\
  (get_width_of_band (set_width_of_band v bd) = v /\
   get_num_of_octaves (set_width_of_band v bd) = get_num_of_octaves bd /\
   get_reduction_ratio (set_width_of_band v bd) = get_reduction_ratio bd) /\
  (get_reduction_ratio (set_reduction_ratio v bd) = v /\
   get_num_of_octaves (set_reduction_ratio v bd) = get_num_of_octaves bd /\
   get_width_of_band (set_reduction_ratio v bd) = get_width_of_band bd).
Proof. split_and!; reflexivity. Qed.

End ConfigClaims.

Module KeyLineClaims.
Import KeyLines.

(** C10 (accessors): the four accessors return the points of the start,
    end, octave-start and octave-end fields, and the caller's record is
    left as it was. *)
Theorem keyline_accessors (kl : KeyLine) :
  call_by_value get_start_point kl =
    ({| px := start_point_x kl; py := start_point_y kl |}, kl) /\
  call_by_value get_end_point kl =
    ({| px := end_point_x kl; py := end_point_y kl |}, kl) /\
  call_by_value get_start_point_in_octave kl =
    ({| px := s_point_in_octave_x kl; py := s_point_in_octave_y kl |}, kl) /\
  call_by_value get_end_point_in_octave kl =
    ({| px := e_point_in_octave_x kl; py := e_point_in_octave_y kl |}, kl).
Proof. split_and!; reflexivity. Qed.

End KeyLineClaims.

Module QueryFacts.
Import Hamming HammingFacts MIH MIHFacts.

Lemma hamming_le_length (a b : code) : hamming a b <= length a.
Proof.
  revert b. induction a as [|x a IH]; intros [|y b]; simpl; [lia|lia|lia|].
  specialize (IH b). destruct (Bool.eqb x y); lia.
Qed.

(** A reported match names a dataset code, with its true distance. *)
Lemma radius_match_sound (idx : index) (maxD id d : nat) (q : code) :
  (id, d) ∈ radius_match idx maxD q ->
  exists c, idx_codes idx !! id = Some c /\ d = hamming q c /\ d <= maxD.
Proof.
  unfold radius_match. intros (x & _ & Hf)%list_elem_of_omap.
  destruct (idx_codes idx !! x) as [c|] eqn:Hc; simpl in Hf; [|discriminate].
  case_decide; [|discriminate]. injection Hf as <- <-. eauto.
Qed.

Lemma omap_fst_nodup {B} (f : nat -> option (nat * B)) (l : list nat) :
  (forall x y, f x = Some y -> y.1 = x) -> NoDup l -> NoDup (map fst (omap f l)).
Proof.
  intros Hf. induction 1 as [|x l Hx Hl IH]; simpl; [constructor|].
  destruct (f x) as [y|] eqn:Hy; [|done]. simpl. constructor; [|done].
  rewrite (Hf _ _ Hy). intros (y' & -> & Hy')%list_elem_of_fmap.
  apply list_elem_of_omap in Hy' as (z & Hz & Hfz).
  rewrite (Hf _ _ Hfz) in Hx. contradiction.
Qed.

Lemma radius_match_nodup (idx : index) (maxD : nat) (q : code) :
  NoDup (map fst (radius_match idx maxD q)).
Proof.
  unfold radius_match. apply omap_fst_nodup; [|apply NoDup_remove_dups].
  intros x y Hf. destruct (idx_codes idx !! x); simpl in Hf; [|discriminate].
  case_decide; [|discriminate]. by injection Hf as <-.
Qed.

(** On a built index, radius matching is exact. *)
Lemma radius_match_exact (m maxD id d : nat) (cs : list code) (q : code) :
  0 < m ->
  (id, d) ∈ radius_match (build_index m cs) maxD q <->
  exists c, cs !! id = Some c /\ d = hamming q c /\ d <= maxD.
Proof.
  intros Hm. split; [apply radius_match_sound|].
  intros (c & Hid & -> & Hd).
  destruct (substring_pigeonhole m maxD q c Hm Hd) as (i & Hi & Hsub).
  apply radius_match_keep; [|done|done]. simpl.
  eapply candidates_complete; [exact Hi|exact Hid|]. by rewrite hamming_sym.
Qed.

Lemma radius_match_ids (idx : index) (maxD : nat) (q : code) :
  forall x, x ∈ map fst (radius_match idx maxD q) -> x ∈ seq 0 (length (idx_codes idx)).
Proof.
  intros x ([x' d] & -> & Hx)%list_elem_of_fmap.
  apply radius_match_sound in Hx as (c & Hc & _). simpl.
  apply elem_of_seq. apply lookup_lt_Some in Hc. lia.
Qed.

Lemma length_radius_match_le (idx : index) (maxD : nat) (q : code) :
  length (radius_match idx maxD q) <= length (idx_codes idx).
Proof.
  rewrite <- (length_map fst), <- (length_seq (length (idx_codes idx)) 0).
  apply submseteq_length, NoDup_submseteq;
    [apply radius_match_nodup|apply radius_match_ids].
Qed.

(** A radius covering the whole code width reports every dataset code. *)
Lemma length_radius_match_full (m maxD : nat) (cs : list code) (q : code) :
  0 < m -> length q = code_bits -> code_bits <= maxD ->
  length (radius_match (build_index m cs) maxD q) = length cs.
Proof.
  intros Hm Hq Hmax. apply Nat.le_antisymm; [apply length_radius_match_le|].
  rewrite <- (length_map fst (radius_match _ _ _)), <- (length_seq (length cs) 0).
  apply submseteq_length, NoDup_submseteq; [apply NoDup_seq|].
  intros x Hx%elem_of_seq. destruct (lookup_lt_is_Some_2 cs x ltac:(lia)) as [c Hc].
  apply list_elem_of_fmap. exists (x, hamming q c). split; [done|].
  apply radius_match_exact; [done|]. exists c. split_and!; [done|done|].
  pose proof (hamming_le_length q c). lia.
Qed.

Lemma escalate_spec (idx : index) (k : nat) (q : code) (fuel r : nat) :
  k <= length (radius_match idx (escalate idx k q r fuel) q) \/
  escalate idx k q r fuel = r + fuel.
Proof.
  revert r. induction fuel as [|f IH]; intros r; simpl; [right; lia|].
  case_decide; [by left|]. destruct (IH (S r)) as [Hk|Hk]; [by left|right; lia].
Qed.

#[local] Instance closer_trans : Transitive closer.
Proof. intros [] [] []. unfold closer. simpl. lia. Qed.

#[local] Instance closer_total : Total closer.
Proof. intros [a x] [b y]. unfold closer. simpl. lia. Qed.

Lemma StronglySorted_lookup {A} (R : relation A) (l : list A) (i j : nat) (a b : A) :
  StronglySorted R l -> i < j -> l !! i = Some a -> l !! j = Some b -> R a b.
Proof.
  revert i j. induction l as [|x l IH]; intros i j Hs Hij Hi Hj; [done|].
  apply StronglySorted_cons in Hs as [Hx Hs].
  destruct i as [|i], j as [|j]; simpl in *; [lia| |lia|].
  - injection Hi as <-. by eapply Forall_lookup_1.
  - eapply IH; [exact Hs| |exact Hi|exact Hj]. lia.
Qed.

Section Knn.
Variables (m k : nat) (cs : list code) (q : code).

Let idx := build_index m cs.
Let r := knn_radius idx k q.
Let L := merge_sort closer (radius_match idx r q).

Lemma knn_match_unfold : knn_match idx k q = take k L.
Proof. reflexivity. Qed.

Lemma L_perm : L ≡ₚ radius_match idx r q.
Proof. apply merge_sort_Permutation. Qed.

Lemma L_sorted : StronglySorted closer L.
Proof. apply StronglySorted_merge_sort; apply _. Qed.

Lemma knn_in_radius (x : nat * nat) :
  x ∈ knn_match idx k q -> x ∈ radius_match idx r q.
Proof.
  rewrite knn_match_unfold. intros (i & Hi & _)%elem_of_take.
  rewrite <- L_perm. by eapply list_elem_of_lookup_2.
Qed.

Lemma knn_length :
  0 < m -> length q = code_bits -> length (knn_match idx k q) = Nat.min k (length cs).
Proof.
  intros Hm Hq.
  rewrite knn_match_unfold, length_take. unfold L.
  rewrite (Permutation_length (merge_sort_Permutation _ _)).
  pose proof (length_radius_match_le idx r q) as Hle. simpl in Hle.
  destruct (escalate_spec idx k q code_bits 0) as [Hk|Hk]; change (escalate idx k q 0 code_bits) with r in Hk.
  - lia.
  - pose proof (length_radius_match_full m r cs q Hm Hq) as Hfull.
    change (build_index m cs) with idx in Hfull. rewrite Hfull by lia. lia.
Qed.

Lemma knn_nodup : NoDup (map fst (knn_match idx k q)).
Proof.
  rewrite knn_match_unfold.
  apply (sublist_NoDup _ (map fst L)); [|by apply fmap_sublist, sublist_take].
  rewrite L_perm. apply radius_match_nodup.
Qed.

Lemma knn_sorted (i j : nat) (a b : nat * nat) :
  i <= j -> knn_match idx k q !! i = Some a -> knn_match idx k q !! j = Some b ->
  a.2 <= b.2.
Proof.
  intros Hij Ha Hb. destruct (decide (i = j)) as [->|Hne].
  - rewrite Ha in Hb. injection Hb as ->. lia.
  - rewrite knn_match_unfold in Ha, Hb.
    apply lookup_take_Some in Ha as [Ha _]. apply lookup_take_Some in Hb as [Hb _].
    exact (StronglySorted_lookup closer L i j a b L_sorted ltac:(lia) Ha Hb).
Qed.

Lemma knn_rank (id d id' : nat) (c' : code) :
  0 < m -> (id, d) ∈ knn_match idx k q -> cs !! id' = Some c' ->
  id' ∉ map fst (knn_match idx k q) -> d <= hamming q c'.
Proof.
  intros Hm Hin Hc' Hout. pose proof (knn_in_radius _ Hin) as Hr.
  apply radius_match_sound in Hr as (c & _ & -> & Hle).
  destruct (decide (hamming q c' <= r)) as [Hnear|Hfar]; [|lia].
  assert (Hx : (id', hamming q c') ∈ L).
  { rewrite L_perm. apply radius_match_exact; [done|]. eauto. }
  rewrite <- (take_drop k L) in Hx. apply elem_of_app in Hx as [Hx|Hx].
  - exfalso. apply Hout. apply list_elem_of_fmap. exists (id', hamming q c').
    by rewrite knn_match_unfold.
  - rewrite knn_match_unfold in Hin.
    pose proof L_sorted as Hs. rewrite <- (take_drop k L) in Hs.
    exact (StronglySorted_app_1_elem_of closer _ _ _ _ Hs Hin Hx).
Qed.

End Knn.

End QueryFacts.

Module CodeFacts.
Import Hamming Binarizer Bands BinarizerFacts.

Lemma nth_map_lt {A B} (f : A -> B) (l : list A) (n : nat) (a : A) (b : B) :
  n < length l -> nth n (map f l) b = f (nth n l a).
Proof.
  intros Hn. rewrite (nth_indep _ b (f a)) by (rewrite length_map; lia).
  apply map_nth.
Qed.

Lemma canonical_pairs_bounds :
  Forall (fun p => p.1 < reference_bands /\ p.2 < reference_bands) canonical_pairs.
Proof. vm_compute. repeat constructor; lia. Qed.

Lemma gt_bit_mono (f : Q -> Q) (x y : Q) :
  (forall x y, (f x <= f y)%Q <-> (x <= y)%Q) -> gt_bit (f x) (f y) = gt_bit x y.
Proof.
  intros Hf. unfold gt_bit. f_equal.
  destruct (Qle_bool x y) eqn:Hxy.
  - apply Qle_bool_iff, (proj2 (Hf x y)), Qle_bool_iff in Hxy. exact Hxy.
  - destruct (Qle_bool (f x) (f y)) eqn:Hfxy; [|reflexivity].
    apply Qle_bool_iff, (proj1 (Hf x y)), Qle_bool_iff in Hfxy. congruence.
Qed.

Lemma pair_byte_mono (f : Q -> Q) (d : descriptor) (p : nat * nat) :
  (forall x y, (f x <= f y)%Q <-> (x <= y)%Q) ->
  8 * reference_bands <= length d ->
  p.1 < reference_bands -> p.2 < reference_bands ->
  pair_byte (map f d) p = pair_byte d p.
Proof.
  intros Hf Hlen H1 H2. unfold pair_byte. apply map_ext_in.
  intros k Hk%in_seq. unfold bd_entry.
  rewrite (nth_map_lt f d _ 0%Q) by (unfold reference_bands in *; lia).
  rewrite (nth_map_lt f d _ 0%Q) by (unfold reference_bands in *; lia).
  apply gt_bit_mono, Hf.
Qed.

Lemma bd_entry_zero (d : descriptor) (j k : nat) :
  Forall (fun x => x == 0)%Q d -> (bd_entry d j k == 0)%Q.
Proof.
  intros Hd. unfold bd_entry.
  destruct (decide (8 * j + k < length d)) as [Hlt|Hge].
  - apply Forall_forall with (x := nth (8 * j + k) d 0%Q) in Hd; [exact Hd|].
    apply list_elem_of_In, nth_In. lia.
  - rewrite nth_overflow by lia. reflexivity.
Qed.

(** A descriptor with only zero entries gives the all-zero code. *)
Lemma binarize_zero (d : descriptor) :
  Forall (fun x => x == 0)%Q d -> binarize d = repeat false code_bits.
Proof.
  intros Hd. unfold binarize.
  rewrite (map_ext (pair_byte d) (fun _ => repeat false 8)); [reflexivity|].
  intros p. unfold pair_byte. change (repeat false 8) with (map (fun _ : nat => false) (seq 0 8)).
  apply map_ext. intros k. unfold gt_bit.
  assert (Hle : (bd_entry d p.1 k <= bd_entry d p.2 k)%Q).
  { rewrite (bd_entry_zero d p.1 k Hd), (bd_entry_zero d p.2 k Hd). apply Qle_refl. }
  apply Qle_bool_iff in Hle. by rewrite Hle.
Qed.

Lemma fold_plus_zero (xs : list Q) :
  Forall (fun x => x == 0)%Q xs -> (fold_right Qplus 0 xs == 0)%Q.
Proof.
  induction 1 as [|x xs Hx _ IH]; simpl; [reflexivity|]. rewrite Hx, IH. reflexivity.
Qed.

Lemma q_mean_zero (xs : list Q) :
  Forall (fun x => x == 0)%Q xs -> (q_mean xs == 0)%Q.
Proof.
  intros Hxs. unfold q_mean. rewrite (fold_plus_zero xs Hxs). unfold Qdiv.
  apply Qmult_0_l.
Qed.

Lemma q_std_zero (sqrt_q : Q -> Q) (xs : list Q) :
  (forall x, x == 0 -> sqrt_q x == 0)%Q ->
  Forall (fun x => x == 0)%Q xs -> (q_std sqrt_q xs == 0)%Q.
Proof.
  intros Hs Hxs. unfold q_std. apply Hs, q_mean_zero.
  apply Forall_forall. intros y Hy. apply list_elem_of_In, in_map_iff in Hy as (x & <- & Hx).
  assert (Hx0 : (x == 0)%Q)
    by (rewrite Forall_forall in Hxs; apply Hxs, list_elem_of_In, Hx).
  rewrite Hx0, (q_mean_zero xs Hxs). reflexivity.
Qed.

(** Without gradient, every entry of the LBD is 0. *)
Lemma lbd_zero (m w : nat) (row_sums : nat -> nat -> V4) (sqrt_q : Q -> Q) :
  (forall j h, Forall (fun x => x == 0)%Q (v4_list (row_sums j h))) ->
  (forall x, x == 0 -> sqrt_q x == 0)%Q ->
  Forall (fun x => x == 0)%Q (lbd m w row_sums sqrt_q).
Proof.
  intros Hrows Hs. unfold lbd. apply Forall_concat, Forall_forall.
  intros bd Hbd. apply list_elem_of_In, in_map_iff in Hbd as (j & <- & _).
  unfold band_descriptor.
  assert (Hcols : forall (g : V4 -> Q), (forall v, In (g v) (v4_list v)) ->
            Forall (fun x => x == 0)%Q (map g (map (row_sums j) (band_rows m w j)))).
  { intros g Hg. apply Forall_forall. intros y Hy.
    apply list_elem_of_In, in_map_iff in Hy as (v & <- & Hv).
    apply in_map_iff in Hv as (h & <- & _).
    specialize (Hrows j h). rewrite Forall_forall in Hrows.
    apply Hrows, list_elem_of_In, Hg. }
  assert (Hbdm : Forall (Forall (fun x => x == 0)%Q) (bdm m w row_sums j)).
  { unfold bdm. repeat constructor; apply Hcols; intros v; simpl; tauto. }
  apply Forall_app. split; apply Forall_forall; intros y Hy;
    apply list_elem_of_In, in_map_iff in Hy as (r & <- & Hr);
    rewrite Forall_forall in Hbdm; specialize (Hbdm r (proj2 (list_elem_of_In _ _) Hr)).
  - by apply q_mean_zero.
  - by apply q_std_zero.
Qed.

End CodeFacts.

Module MatcherProps.
Import Hamming MIH MIHFacts QueryFacts Samples.

(** After [add] and a successful [train], a radius query returns one
    row per query code, and row [i] holds exactly the pairs [(id, d)]
    where [id] indexes a staged code [c] (all batches staged so far, in
    order) with [d = hamming q_i c <= maxD]. *)
Theorem trained_query_exact (st st' : matcher) (ds : list (list code))
    (qs : list code) (maxD : nat) :
  0 < mt_m st -> train (add ds st) = inr st' ->
  exists rows, radius_query st' qs maxD = inr rows /\ length rows = length qs /\
    forall i q row, qs !! i = Some q -> rows !! i = Some row ->
      forall id d, (id, d) ∈ row <->
        exists c, concat (staged st ++ ds) !! id = Some c /\ d = hamming q c /\ d <= maxD.
Proof.
  intros Hm Htr. unfold train in Htr. simpl in Htr.
  destruct (concat (staged st ++ ds)) as [|c0 cs0] eqn:Hcs; [discriminate|].
  injection Htr as <-. unfold radius_query. simpl.
  eexists. split_and!; [reflexivity|by rewrite length_map|].
  intros i q row Hq Hrow id d. rewrite list_lookup_fmap, Hq in Hrow.
  injection Hrow as <-. by apply radius_match_exact.
Qed.

Lemma trained_query_exact_witness :
  exists st', train (add [[zero_code; two_bit_code]] (new_matcher 4)) = inr st' /\
    exists rows, radius_query st' [zero_code] 3 = inr rows /\ length rows = 1.
Proof.
  eexists. split; [reflexivity|].
  destruct (trained_query_exact (new_matcher 4) _ [[zero_code; two_bit_code]]
              [zero_code] 3 ltac:(simpl; lia) eq_refl) as (rows & H1 & H2 & _).
  exists rows. split; [exact H1|exact H2].
Defined.

(** A k-NN query on an index of [cs] with a full-width query returns
    [min k (length cs)] matches, with distinct ids, in ascending order of
    distance, each with the true distance of its dataset code. *)
Theorem knn_match_order (m k : nat) (cs : list code) (q : code) :
  0 < m -> length q = code_bits ->
  length (knn_match (build_index m cs) k q) = Nat.min k (length cs) /\
  NoDup (map fst (knn_match (build_index m cs) k q)) /\
  (forall i j a b, i <= j -> knn_match (build_index m cs) k q !! i = Some a ->
     knn_match (build_index m cs) k q !! j = Some b -> a.2 <= b.2) /\
  (forall id d, (id, d) ∈ knn_match (build_index m cs) k q ->
     exists c, cs !! id = Some c /\ d = hamming q c).
Proof.
  intros Hm Hq. split_and!.
  - by apply knn_length.
  - apply knn_nodup.
  - intros i j a b. apply knn_sorted.
  - intros id d Hin. apply knn_in_radius, radius_match_sound in Hin as (c & Hc & Hd & _).
    eauto.
Qed.

Lemma knn_match_order_witness :
  length (knn_match (build_index 4 [zero_code; two_bit_code]) 1 zero_code) = 1.
Proof.
  exact (proj1 (knn_match_order 4 1 [zero_code; two_bit_code] zero_code
                  ltac:(lia) eq_refl)).
Defined.

(** A k-NN query misses no closer code: every dataset code left out of
    the result is at least as far from the query as every returned
    match. *)
Theorem knn_match_nearest (m k id d id' : nat) (cs : list code) (q c' : code) :
  0 < m -> (id, d) ∈ knn_match (build_index m cs) k q -> cs !! id' = Some c' ->
  id' ∉ map fst (knn_match (build_index m cs) k q) -> d <= hamming q c'.
Proof. apply knn_rank. Qed.

Lemma knn_match_nearest_witness : 0 <= hamming zero_code two_bit_code.
Proof.
  apply (knn_match_nearest 4 1 0 0 1 [zero_code; two_bit_code] zero_code two_bit_code).
  - lia.
  - apply (bool_decide_unpack _). vm_compute. reflexivity.
  - reflexivity.
  - apply (bool_decide_unpack _). vm_compute. reflexivity.
Defined.

(** The best match of a full-width query exists exactly when the
    dataset is not empty; it names a dataset code, carries its true
    distance, and no dataset code is closer to the query. *)
Theorem best_match_nearest (m : nat) (cs : list code) (q : code) :
  0 < m -> length q = code_bits ->
  (best_match (build_index m cs) q = None <-> cs = []) /\
  (forall id d, best_match (build_index m cs) q = Some (id, d) ->
     exists c, cs !! id = Some c /\ d = hamming q c /\
       forall id' c', cs !! id' = Some c' -> d <= hamming q c').
Proof.
  intros Hm Hq. unfold best_match.
  pose proof (knn_length m 1 cs q Hm Hq) as Hlen.
  split.
  - destruct (knn_match (build_index m cs) 1 q) as [|x l]; simpl in *.
    + split; [|done]. intros _. destruct cs; [done|simpl in Hlen; lia].
    + split; [discriminate|]. intros ->. simpl in Hlen. lia.
  - intros id d Hbest.
    destruct (knn_match (build_index m cs) 1 q) as [|x l] eqn:Hk; [discriminate|].
    simpl in Hbest. injection Hbest as ->. simpl in Hlen.
    destruct l; [|destruct (length cs); simpl in Hlen; lia].
    assert (Hin : (id, d) ∈ knn_match (build_index m cs) 1 q) by (rewrite Hk; set_solver).
    pose proof (knn_in_radius m 1 cs q _ Hin) as Hr.
    apply radius_match_sound in Hr as (c & Hc & Hd & _). simpl in Hc.
    exists c. split_and!; [done|done|].
    intros id' c' Hc'. destruct (decide (id' = id)) as [->|Hne].
    + rewrite Hc in Hc'. injection Hc' as <-. lia.
    + apply (knn_rank m 1 cs q id d id' c' Hm Hin Hc'). rewrite Hk. simpl. set_solver.
Qed.

Lemma best_match_nearest_witness :
  best_match (build_index 4 [zero_code; two_bit_code]) zero_code <> None.
Proof.
  intros Hn.
  apply (proj1 (best_match_nearest 4 [zero_code; two_bit_code] zero_code
                  ltac:(lia) eq_refl)) in Hn.
  discriminate.
Defined.

End MatcherProps.

Module CodeProps.
Import Hamming Binarizer Bands BinarizerFacts CodeFacts Samples.

(** The binary code depends only on the order of the descriptor's
    entries: applying an order-preserving and order-reflecting map to
    every entry of a descriptor of the reference layout (at least 72
    entries), for instance a positive gain, leaves the code unchanged. *)
Theorem binarize_order_invariant (f : Q -> Q) (d : descriptor) :
  (forall x y, (f x <= f y)%Q <-> (x <= y)%Q) ->
  8 * reference_bands <= length d ->
  binarize (map f d) = binarize d.
Proof.
  intros Hf Hlen. unfold binarize. f_equal. apply map_ext_in.
  intros p Hp. pose proof canonical_pairs_bounds as Hb.
  rewrite Forall_forall in Hb. destruct (Hb p (proj2 (list_elem_of_In _ _) Hp)) as [H1 H2].
  by apply pair_byte_mono.
Qed.

Lemma binarize_order_invariant_witness :
  binarize (map (Qmult 2) ramp_lbd) = binarize ramp_lbd.
Proof.
  apply binarize_order_invariant.
  - intros x y. apply Qmult_le_l. reflexivity.
  - vm_compute. lia.
Defined.

(** A line support region without gradient (all row sums 0) yields an
    LBD whose entries are all 0, and that LBD binarises to the all-zero
    256-bit code. *)
Theorem flat_region_zero_code (m w : nat) (row_sums : nat -> nat -> V4) (sqrt_q : Q -> Q) :
  (forall j h, Forall (fun x => x == 0)%Q (v4_list (row_sums j h))) ->
  (forall x, x == 0 -> sqrt_q x == 0)%Q ->
  Forall (fun x => x == 0)%Q (lbd m w row_sums sqrt_q) /\
  binarize (lbd m w row_sums sqrt_q) = repeat false code_bits.
Proof.
  intros Hrows Hs. pose proof (lbd_zero m w row_sums sqrt_q Hrows Hs) as Hz.
  split; [exact Hz|]. by apply binarize_zero.
Qed.

Lemma flat_region_zero_code_witness :
  binarize (lbd 3 2 zero_rows sqrt_self) = repeat false code_bits.
Proof.
  apply (flat_region_zero_code 3 2 zero_rows sqrt_self).
  - intros j h. repeat constructor.
  - intros x Hx. exact Hx.
Defined.

End CodeProps.

